(** * script_to_clipboard: dialogue extraction from a paged script

    A shallow embedding of [script_to_clipboard.py] and the properties of
    its parser ([parse_script]) and presenter ([list_pages],
    [copy_page_dialogues], [main]).

    Modelling conventions.
    - A Python [str] is a sequence of Unicode code points: [list N].
    - A Python [int] is a [Z]; [int(...)] of a digit string is its exact
      decimal value, as the language defines it (the cap that CPython, as
      an implementation detail, may put on the length of digit strings is
      not part of the model).
    - The [dict] [pages] is a [gmap Z (list str)].  Its insertion order is
      never observed by the program (every traversal goes through
      [sorted]).
    - [pages[k]] on a missing key raises [KeyError]; a raised exception is
      [None] in the parser and [Raised] in the presenter.
    - [parse_script] is modelled from the point where the file has been
      read: its argument is the text returned by [f.read()].
    - Standard output, the usage help of argparse and the [pbcopy]
      subprocess are recorded, in order, in a trace of events. *)

From Stdlib Require Import ZArith NArith Ascii String DecimalString.
From stdpp Require Import gmap list sorting.

Local Open Scope N_scope.

(** ** Text *)

Abbreviation char := N (only parsing).
Abbreviation str := (list N) (only parsing).

(** Decoding of the UTF-8 bytes of a string literal into code points; this
    is how the literals of the Python source are written below. *)
Fixpoint utf8_decode (bs : list N) : str :=
  match bs with
  | [] => []
  | b0 :: r0 =>
    if b0 <? 0x80 then b0 :: utf8_decode r0
    else if b0 <? 0xE0 then
      match r0 with
      | b1 :: r1 => ((b0 - 0xC0) * 0x40 + (b1 - 0x80)) :: utf8_decode r1
      | _ => []
      end
    else if b0 <? 0xF0 then
      match r0 with
      | b1 :: b2 :: r2 =>
        ((b0 - 0xE0) * 0x1000 + (b1 - 0x80) * 0x40 + (b2 - 0x80))
          :: utf8_decode r2
      | _ => []
      end
    else
      match r0 with
      | b1 :: b2 :: b3 :: r3 =>
        ((b0 - 0xF0) * 0x40000 + (b1 - 0x80) * 0x1000
         + (b2 - 0x80) * 0x40 + (b3 - 0x80)) :: utf8_decode r3
      | _ => []
      end
  end.

Definition py (s : string) : str :=
  utf8_decode (map N_of_ascii (list_ascii_of_string s)).

Definition newline : char := 10.
Definition open_quote : char := 0x300C.     (* 「 *)
Definition close_quote : char := 0x300D.    (* 」 *)
Definition open_marker : char := 0x3010.    (* 【 *)
Definition close_marker : char := 0x3011.   (* 】 *)
Definition wide_paren : char := 0xFF08.     (* （ *)
Definition square_bracket : char := 0x5B.   (* [ *)

(** Unicode white space: the characters for which [str.isspace] holds;
    [str.strip()] and the regex class [\s] both use this set. *)
Definition whitespace : list char :=
  [0x9; 0xA; 0xB; 0xC; 0xD; 0x1C; 0x1D; 0x1E; 0x1F; 0x20; 0x85; 0xA0;
   0x1680; 0x2000; 0x2001; 0x2002; 0x2003; 0x2004; 0x2005; 0x2006; 0x2007;
   0x2008; 0x2009; 0x200A; 0x2028; 0x2029; 0x202F; 0x205F; 0x3000].

Definition is_space (c : char) : bool := existsb (N.eqb c) whitespace.

(** Unicode decimal digits (category Nd, the regex class [\d]): they come
    in runs of ten consecutive code points for the values 0 to 9; the
    table lists the zero of each run (Unicode 14). *)
Definition digit_zeros : list char :=
  [0x30; 0x660; 0x6F0; 0x7C0; 0x966; 0x9E6; 0xA66; 0xAE6; 0xB66; 0xBE6;
   0xC66; 0xCE6; 0xD66; 0xDE6; 0xE50; 0xED0; 0xF20; 0x1040; 0x1090; 0x17E0;
   0x1810; 0x1946; 0x19D0; 0x1A80; 0x1A90; 0x1B50; 0x1BB0; 0x1C40; 0x1C50;
   0xA620; 0xA8D0; 0xA900; 0xA9D0; 0xA9F0; 0xAA50; 0xABF0; 0xFF10; 0x104A0;
   0x10D30; 0x11066; 0x110F0; 0x11136; 0x111D0; 0x112F0; 0x11450; 0x114D0;
   0x11650; 0x116C0; 0x11730; 0x118E0; 0x11950; 0x11C50; 0x11D50; 0x11DA0;
   0x16A60; 0x16AC0; 0x16B50; 0x1D7CE; 0x1D7D8; 0x1D7E2; 0x1D7EC; 0x1D7F6;
   0x1E140; 0x1E2F0; 0x1E950; 0x1FBF0].

Definition in_run (c zero : char) : bool := (zero <=? c) && (c <? zero + 10).

Definition is_digit (c : char) : bool := existsb (in_run c) digit_zeros.

Definition digit_value (c : char) : Z :=
  match find (in_run c) digit_zeros with
  | Some zero => Z.of_N (c - zero)
  | None => 0%Z
  end.

(** [int(s)] for a string of decimal digits. *)
Definition int (s : str) : Z :=
  fold_left (fun acc c => (10 * acc + digit_value c)%Z) s 0%Z.

(** [str(n)] for an integer. *)
Definition str_of_int (n : Z) : str :=
  map N_of_ascii (list_ascii_of_string (NilEmpty.string_of_int (Z.to_int n))).

(** [s.split(sep)] for a one-character separator. *)
Fixpoint split (sep : char) (s : str) : list str :=
  match s with
  | [] => [[]]
  | c :: s' =>
    if c =? sep then [] :: split sep s'
    else match split sep s' with
         | l :: ls => (c :: l) :: ls
         | [] => [[c]]
         end
  end.

Fixpoint lstrip (s : str) : str :=
  match s with
  | c :: s' => if is_space c then lstrip s' else s
  | [] => []
  end.

Definition rstrip (s : str) : str := rev (lstrip (rev s)).

Definition strip (s : str) : str := rstrip (lstrip s).

Fixpoint startswith (s prefix : str) {struct prefix} : bool :=
  match prefix, s with
  | [], _ => true
  | p :: prefix', c :: s' => (c =? p) && startswith s' prefix'
  | _ :: _, [] => false
  end.

(** [sep.join(l)] *)
Fixpoint join (sep : str) (l : list str) : str :=
  match l with
  | [] => []
  | [x] => x
  | x :: l' => x ++ sep ++ join sep l'
  end.

(** ** Regular expressions

    The fragment of Python's [re] that the program uses: a pattern is a
    sequence of single-character tests, greedy repetitions of a
    single-character test, and the marks that open and close a capturing
    group.  Matching is the backtracking search of the [re] engine: a
    greedy repetition first takes as many characters as it can and gives
    them back one at a time while the rest of the pattern fails. *)
Module Re.

Inductive cclass : Type :=
| Lit (c : char)          (* the character itself *)
| Space                   (* \s *)
| Digit                   (* \d *)
| Dot                     (* .   : anything but a newline *)
| Except (c : char).      (* [^c] *)

Inductive op : Type :=
| One (k : cclass)
| Star (k : cclass)       (* k*  *)
| Plus (k : cclass)       (* k+  *)
| Mark.                   (* a group boundary, ( or ) *)

Definition pattern := list op.

Definition accepts (k : cclass) (c : char) : bool :=
  match k with
  | Lit c' => c =? c'
  | Space => is_space c
  | Digit => is_digit c
  | Dot => negb (c =? newline)
  | Except c' => negb (c =? c')
  end.

Definition literal (s : str) : pattern := map (fun c => One (Lit c)) s.

(** [greedy k cont s]: consume a longest run of [k] at the head of [s],
    then continue with [cont]; on failure retry with a shorter run. *)
Fixpoint greedy {A} (k : cclass) (cont : str -> option A) (s : str)
  : option A :=
  match s with
  | c :: s' =>
    if accepts k c then
      match greedy k cont s' with
      | Some r => Some r
      | None => cont s
      end
    else cont s
  | [] => cont s
  end.

(** [exec p s marks]: match [p] at the head of [s].  The result holds,
    for each mark passed, the text that was left at that point, and the
    text left after the match. *)
Fixpoint exec (p : pattern) (s : str) (marks : list str)
  : option (list str * str) :=
  match p with
  | [] => Some (marks, s)
  | One k :: p' =>
    match s with
    | c :: s' => if accepts k c then exec p' s' marks else None
    | [] => None
    end
  | Star k :: p' => greedy k (fun s' => exec p' s' marks) s
  | Plus k :: p' =>
    match s with
    | c :: s' =>
      if accepts k c then greedy k (fun s' => exec p' s' marks) s'
      else None
    | [] => None
    end
  | Mark :: p' => exec p' s (marks ++ [s])
  end.

(** [re.search]: the match at the leftmost position that has one. *)
Fixpoint search (p : pattern) (s : str) : option (list str * str) :=
  match exec p s [] with
  | Some m => Some m
  | None =>
    match s with
    | [] => None
    | _ :: s' => search p s'
    end
  end.

(** [m.group(1)]: the text between the first two marks. *)
Definition group1 (m : list str * str) : str :=
  match fst m with
  | a :: b :: _ => take (length a - length b) a
  | _ => []
  end.

End Re.

(** ** The parser *)

(** [r'【Page\s*(\d+)】']: the literal 【Page, then [\s*(\d+)】]. *)
Definition after_label : Re.pattern :=
  [Re.Star Re.Space; Re.Mark; Re.Plus Re.Digit; Re.Mark;
   Re.One (Re.Lit close_marker)].

Definition page_pattern : Re.pattern :=
  Re.literal (py "【Page") ++ after_label.

(** [r'.+「([^」]+)」'], the pattern of the [re.search] call in the loop:
    [.+], then [「([^」]+)」].  (The compiled [dialogue_pattern] of the
    source is never used.) *)
Definition quoted : Re.pattern :=
  [Re.One (Re.Lit open_quote); Re.Mark; Re.Plus (Re.Except close_quote);
   Re.Mark; Re.One (Re.Lit close_quote)].

Definition dialogue_re : Re.pattern := Re.Plus Re.Dot :: quoted.

Abbreviation PageTable := (gmap Z (list (list N))) (only parsing).

(** The loop state: the dictionary [pages] and [current_page]. *)
Definition pstate : Type := PageTable * option Z.

(** The lines ignored as stage directions or panel designations. *)
Definition is_annotation (line : str) : bool :=
  startswith (strip line) [wide_paren]
  || startswith (strip line) [square_bracket].

(** One iteration of [for line in lines]; [None] is an uncaught
    [KeyError] of [pages[current_page]]. *)
Definition process_line (st : pstate) (line : str) : option pstate :=
  let '(pages, current_page) := st in
  match Re.search page_pattern line with
  | Some page_match =>
    let current_page := int (Re.group1 page_match) in
    Some (match pages !! current_page with
          | Some _ => pages
          | None => <[current_page := []]> pages
          end, Some current_page)
  | None =>
    match current_page with
    | Some p =>
      if is_annotation line then Some st
      else
        match Re.search dialogue_re line with
        | Some m =>
          let dialogue := Re.group1 m in
          match pages !! p with
          | Some dialogues => Some (<[p := dialogues ++ [dialogue]]> pages, Some p)
          | None => None
          end
        | None => Some st
        end
    | None => Some st
    end
  end.

Fixpoint process_lines (st : pstate) (lines : list str) : option pstate :=
  match lines with
  | [] => Some st
  | line :: lines' =>
    match process_line st line with
    | Some st' => process_lines st' lines'
    | None => None
    end
  end.

Definition parse_script (content : str) : option PageTable :=
  match process_lines (∅, None) (split newline content) with
  | Some (pages, _) => Some pages
  | None => None
  end.

(** ** The presenter *)

(** What the process does to the outside world, in order. *)
Inductive event : Type :=
| Print (text : str)        (* one call of print *)
| PrintHelp                 (* parser.print_help() *)
| Pbcopy (text : str).      (* text piped to the pbcopy subprocess *)

(** How a procedure ends. *)
Inductive outcome (A : Type) : Type :=
| Done (a : A)              (* it returns *)
| SysExit (code : Z)        (* sys.exit(code) *)
| Raised.                   (* an uncaught exception *)
Arguments Done {A} a.
Arguments SysExit {A} code.
Arguments Raised {A}.

Definition proc (A : Type) : Type := list event * outcome A.

Definition proc_bind {A B} (f : A -> proc B) (m : proc A) : proc B :=
  match m with
  | (tr, Done a) => let '(tr', o) := f a in (tr ++ tr', o)
  | (tr, SysExit c) => (tr, SysExit c)
  | (tr, Raised) => (tr, Raised)
  end.

#[global] Instance proc_ret : MRet proc := fun A a => ([], Done a).
#[global] Instance proc_mbind : MBind proc := @proc_bind.

Definition print (text : str) : proc unit := ([Print text], Done tt).
Definition print_help : proc unit := ([PrintHelp], Done tt).
Definition sys_exit {A} (code : Z) : proc A := ([], SysExit code).
Definition raise {A} : proc A := ([], Raised).

(** [for x in l: body x] *)
Fixpoint for_each {A} (l : list A) (body : A -> proc unit) : proc unit :=
  match l with
  | [] => mret tt
  | x :: l' => body x ;; for_each l' body
  end.

(** [enumerate(l, start)] *)
Fixpoint enumerate {A} (l : list A) (start : Z) : list (Z * A) :=
  match l with
  | [] => []
  | x :: l' => (start, x) :: enumerate l' (start + 1)%Z
  end.

(** [sorted(pages.keys())] *)
Definition sorted_keys (pages : PageTable) : list Z :=
  merge_sort Z.le (map fst (map_to_list pages)).

(** [str(l)] for a list of integers, as in [[1, 2]]. *)
Definition str_of_list (l : list Z) : str :=
  py "[" ++ join (py ", ") (map str_of_int l) ++ py "]".

(** [s * n] *)
Definition times (s : str) (n : nat) : str := concat (replicate n s).

Definition copy_to_clipboard (text : str) : proc unit :=
  ([Pbcopy text], Done tt).

(** [dialogue[:30] + "..." if len(dialogue) > 30 else dialogue] *)
Definition display (dialogue : str) : str :=
  if (30 <? length dialogue)%nat then take 30 dialogue ++ py "..."
  else dialogue.

Definition list_pages (pages : PageTable) : proc unit :=
  print (times (py "=") 50) ;;
  print (py "台本ページ一覧") ;;
  print (times (py "=") 50) ;;
  for_each (sorted_keys pages) (fun page_num =>
    match pages !! page_num with
    | None => raise
    | Some dialogues =>
      print ([newline] ++ py "【Page " ++ str_of_int page_num ++ py "】 ("
             ++ str_of_int (Z.of_nat (length dialogues)) ++ py "セリフ)") ;;
      for_each (enumerate dialogues 1) (fun '(i, dialogue) =>
        print (py "  " ++ str_of_int i ++ py ". " ++ display dialogue))
    end).

Definition copy_page_dialogues (pages : PageTable) (page_num : Z)
  : proc unit :=
  match pages !! page_num with
  | None =>
    print (py "エラー: Page " ++ str_of_int page_num
           ++ py " が見つかりません") ;;
    print (py "利用可能なページ: " ++ str_of_list (sorted_keys pages)) ;;
    sys_exit 1
  | Some dialogues =>
    match dialogues with
    | [] =>
      print (py "Page " ++ str_of_int page_num
             ++ py " にセリフがありません") ;;
      sys_exit 1
    | _ :: _ =>
      let all_text := join [newline; newline] dialogues in
      copy_to_clipboard all_text ;;
      print (py "【Page " ++ str_of_int page_num ++ py "】 "
             ++ str_of_int (Z.of_nat (length dialogues))
             ++ py "個のセリフをコピーしました") ;;
      print (times (py "=") 50) ;;
      print all_text ;;
      print (times (py "=") 50) ;;
      print (py "クリップボードにコピー完了！")
    end
  end.

(** The namespace returned by [parser.parse_args()]. *)
Record args : Type := {
  arg_script_file : str;
  arg_page : option Z;      (* --page / -p *)
  arg_list : bool           (* --list / -l *)
}.

(** [main], from the point where the command line has been parsed.  The
    file system is a function from a path to the text of the file there,
    when there is one. *)
Definition main (fs : str -> option str) (a : args) : proc unit :=
  match fs (arg_script_file a) with
  | None =>
    print (py "エラー: ファイルが見つかりません: " ++ arg_script_file a) ;;
    sys_exit 1
  | Some content =>
    match parse_script content with
    | None => raise
    | Some pages =>
      if decide (pages = ∅) then
        print (py "エラー: ページが見つかりません。台本フォーマットを確認してください") ;;
        sys_exit 1
      else if arg_list a then list_pages pages
      else
        match arg_page a with
        | None =>
          print (py "エラー: --page または --list を指定してください") ;;
          print_help ;;
          sys_exit 1
        | Some page_num => copy_page_dialogues pages page_num
        end
    end
  end.

Definition scenario_A : str :=
  py "【Page 1】" ++ [newline] ++ py "Alice「Hello」" ++ [newline]
  ++ py "（stage direction）" ++ [newline] ++ py "【Page 2】" ++ [newline]
  ++ py "Bob「Goodbye」".

(** ** Specification vocabulary *)

(** A page marker 【Page, white space, digits, 】 starts at index [i] of
    [line] and its digits denote [n]. *)
Definition marker_at (line : str) (i : nat) (n : Z) : Prop :=
  ∃ pre ws ds post,
    line = pre ++ py "【Page" ++ ws ++ ds ++ close_marker :: post
    ∧ length pre = i
    ∧ Forall (λ c, is_space c = true) ws
    ∧ Forall (λ c, is_digit c = true) ds
    ∧ ds ≠ []
    ∧ int ds = n.

(** The marker of [line] that starts first. *)
Definition first_marker (line : str) (n : Z) : Prop :=
  ∃ i, marker_at line i n ∧ ∀ j m, (j < i)%nat → ¬ marker_at line j m.

(** A quoted span 「d」, with [d] not empty and free of 」, starts at
    index [j] of [line]. *)
Definition span_at (line : str) (j : nat) (d : str) : Prop :=
  ∃ pre post,
    line = pre ++ open_quote :: d ++ close_quote :: post
    ∧ length pre = j
    ∧ d ≠ []
    ∧ close_quote ∉ d.

(** The line, without its leading white space, starts with [c]. *)
Definition trimmed_starts (line : str) (c : char) : Prop :=
  ∃ ws rest, line = ws ++ c :: rest ∧ Forall (λ c, is_space c = true) ws.

(** The text left once the longest run of [k] is taken off [s]. *)
Fixpoint skip (k : Re.cclass) (s : str) : str :=
  match s with
  | c :: s' => if Re.accepts k c then skip k s' else s
  | [] => []
  end.

(** [current_page], when set, is a key of [pages]. *)
Definition active_ok (st : pstate) : Prop :=
  ∀ p, st.2 = Some p → is_Some (st.1 !! p).

(** *** The parser claims, as the specification words them *)

(** Some line of the text has a marker for page [n]. *)
Definition marked (content : str) (n : Z) : Prop :=
  ∃ line i, line ∈ split newline content ∧ marker_at line i n.



(** "The extracted span is the first quoted span after the label": under
    an active page [p] the line appends the span that starts first among
    those with a character before them. *)
Definition first_span_extracted (line : str) : Prop :=
  ∀ (pages : PageTable) p ds, pages !! p = Some ds →
    ∃ j d, (1 ≤ j)%nat ∧ span_at line j d
           ∧ (∀ j' d', (1 ≤ j')%nat → span_at line j' d' → (j ≤ j')%nat)
           ∧ process_line (pages, Some p) line
             = Some (<[p := ds ++ [d]]> pages, Some p).

Definition two_spans : str := py "A「x」B「y」".




(** *** The presenter claims *)

(** [ks] lists the keys of [pages] in ascending order. *)
Definition ascending_keys (pages : PageTable) (ks : list Z) : Prop :=
  StronglySorted Z.lt ks ∧ ∀ k, k ∈ ks ↔ is_Some (pages !! k).

(** The heading of the page list. *)
Definition banner : list event :=
  [Print (times (py "=") 50); Print (py "台本ページ一覧");
   Print (times (py "=") 50)].

(** What the page list shows for one page: a line with the page number
    and the number of dialogues, then the dialogues, numbered from 1. *)
Definition page_listing (page_num : Z) (dialogues : list str) : list event :=
  Print ([newline] ++ py "【Page " ++ str_of_int page_num ++ py "】 ("
         ++ str_of_int (Z.of_nat (length dialogues)) ++ py "セリフ)")
  :: imap (λ i d, Print (py "  " ++ str_of_int (1 + Z.of_nat i) ++ py ". "
                         ++ display d)) dialogues.

Definition page_not_found_msg (page_num : Z) : str :=
  py "エラー: Page " ++ str_of_int page_num ++ py " が見つかりません".

Definition page_empty_msg (page_num : Z) : str :=
  py "Page " ++ str_of_int page_num ++ py " にセリフがありません".

Definition no_pages_msg : str :=
  py "エラー: ページが見つかりません。台本フォーマットを確認してください".

Definition missing_mode_msg : str :=
  py "エラー: --page または --list を指定してください".




(** Scenario D: the pages 1 and 2, the second without dialogue. *)
Definition two_pages : PageTable := {[ 1%Z := [py "a"]; 2%Z := [] ]}.

(** Scenario E: one page with one dialogue of forty characters. *)
Definition long_page : PageTable := {[ 1%Z := [times (py "a") 40] ]}.

(** *** Further vocabulary *)

(** What the loop takes from a line that holds no page marker, under an
    active page: nothing from an annotation line, else group 1 of the
    dialogue pattern when it matches. *)
Definition dialogue_of (line : str) : option str :=
  if is_annotation line then None
  else Re.group1 <$> Re.search dialogue_re line.

(** The texts piped to [pbcopy] in a trace, in order. *)
Definition clipboard_writes (tr : list event) : list str :=
  omap (λ e, match e with Pbcopy text => Some text | _ => None end) tr.

(** A dialogue is not empty and holds neither 」 nor a newline. *)
Definition well_formed_dialogue (d : str) : Prop :=
  d ≠ [] ∧ (close_quote ∉ d) ∧ (newline ∉ d).


(** Every dialogue of the table is well formed. *)
Definition all_well_formed (pages : PageTable) : Prop :=
  ∀ k ds d, pages !! k = Some ds → d ∈ ds → well_formed_dialogue d.

(** Two pages, the first one current, before and after the line
    Alice「Hello」. *)
Definition hello_before : PageTable := {[ 1%Z := []; 2%Z := [py "a"] ]}.
Definition hello_after : PageTable :=
  {[ 1%Z := [py "Hello"]; 2%Z := [py "a"] ]}.

(** ** The model on small inputs *)

Example py_decodes : py "【A】" = [open_marker; 65; close_marker].
Proof. reflexivity. Qed.

Example split_keeps_empty_lines :
  split newline (py "a" ++ [newline; newline] ++ py "b" ++ [newline])
  = [py "a"; []; py "b"; []].
Proof. reflexivity. Qed.

Example strip_unicode_space : strip (py "　 （a ") = py "（a".
Proof. reflexivity. Qed.

Example marker_fullwidth_digits :
  int ∘ Re.group1 <$> Re.search page_pattern (py "【Page１２】") = Some 12%Z.
Proof. reflexivity. Qed.

Example marker_leading_zeros :
  int ∘ Re.group1 <$> Re.search page_pattern (py "x【Page【Page　007】")
  = Some 7%Z.
Proof. reflexivity. Qed.

Example marker_needs_digits_before_bracket :
  Re.search page_pattern (py "【Page 1 】") = None.
Proof. reflexivity. Qed.

Example dialogue_skips_empty_span :
  Re.group1 <$> Re.search dialogue_re (py "A「x」B「」") = Some (py "x").
Proof. reflexivity. Qed.

Example dialogue_inner_open_quote :
  Re.group1 <$> Re.search dialogue_re (py "「a「b」") = Some (py "b").
Proof. reflexivity. Qed.

Example str_of_int_negative : str_of_int (-120) = py "-120".
Proof. reflexivity. Qed.

Example str_of_list_two : str_of_list [1%Z; 2%Z] = py "[1, 2]".
Proof. reflexivity. Qed.

(** ** Character classes *)

Lemma is_space_elem c : is_space c = true ↔ c ∈ whitespace.
Proof.
  unfold is_space. rewrite existsb_exists. split.
  - intros (x & Hx & ->%N.eqb_eq). by apply list_elem_of_In.
  - intros H. exists c. split; [by apply list_elem_of_In | apply N.eqb_refl].
Qed.

Lemma space_not_digit c : is_space c = true → is_digit c = false.
Proof.
  intros H%is_space_elem. unfold whitespace in H.
  repeat match goal with
         | H : _ ∈ _ :: _ |- _ => apply elem_of_cons in H as [-> | H]
         | H : _ ∈ [] |- _ => by apply elem_of_nil in H
         end; reflexivity.
Qed.

Lemma digit_not_space c : is_digit c = true → is_space c = false.
Proof.
  intros H. destruct (is_space c) eqn:E; [|done].
  apply space_not_digit in E. congruence.
Qed.

Lemma digit_not_close_marker c : is_digit c = true → c ≠ close_marker.
Proof. intros H ->. vm_compute in H. discriminate. Qed.

(** ** The matching engine *)

Lemma skip_decompose k s :
  ∃ run, s = run ++ skip k s ∧ Forall (λ c, Re.accepts k c = true) run.
Proof.
  induction s as [|c s (run & Hs & Hrun)]; simpl.
  - by exists [].
  - destruct (Re.accepts k c) eqn:E.
    + exists (c :: run). split; [by rewrite <- app_comm_cons, <- Hs|].
      by constructor.
    + by exists [].
Qed.

Lemma skip_run k run rest :
  Forall (λ c, Re.accepts k c = true) run →
  match rest with [] => True | c :: _ => Re.accepts k c = false end →
  skip k (run ++ rest) = rest.
Proof.
  intros Hrun Hrest. induction Hrun as [|c run Hc _ IH]; simpl.
  - destruct rest as [|c rest]; [done|]. simpl. by rewrite Hrest.
  - by rewrite Hc.
Qed.

(** A greedy repetition never gives characters back when the rest of the
    pattern cannot start with a character of the repeated class. *)
Lemma greedy_commit {A} k (cont : str → option A) s :
  (∀ c s', Re.accepts k c = true → cont (c :: s') = None) →
  Re.greedy k cont s = cont (skip k s).
Proof.
  intros Hcont. induction s as [|c s IH]; simpl; [done|].
  destruct (Re.accepts k c) eqn:E; [|done].
  rewrite IH. destruct (cont (skip k s)) eqn:E'; [done|]. by apply Hcont.
Qed.

(** When every character of [s] is in the class, the repetition fails
    only if the continuation fails after each prefix ... *)
Lemma greedy_none {A} k (cont : str → option A) s :
  Forall (λ c, Re.accepts k c = true) s →
  Re.greedy k cont s = None ↔ ∀ n, cont (drop n s) = None.
Proof.
  induction 1 as [|c s Hc _ IH]; simpl.
  - split; [intros H n; by rewrite drop_nil | intros H; apply (H 0%nat)].
  - rewrite Hc. split.
    + intros H n. destruct (Re.greedy k cont s) eqn:E; [done|].
      destruct n as [|n]; [done|]. simpl. by apply IH.
    + intros H. assert (Re.greedy k cont s = None) as ->.
      { apply IH. intros n. apply (H (S n)). }
      apply (H 0%nat).
Qed.

(** ... and otherwise it yields the continuation's result after the
    longest prefix for which there is one. *)
Lemma greedy_some {A} k (cont : str → option A) s r :
  Forall (λ c, Re.accepts k c = true) s →
  Re.greedy k cont s = Some r ↔
  ∃ n, (n ≤ length s)%nat ∧ cont (drop n s) = Some r
       ∧ ∀ n', (n < n' ≤ length s)%nat → cont (drop n' s) = None.
Proof.
  induction 1 as [|c s Hc Hs IH]; simpl.
  - split.
    + intros H. exists 0%nat. split_and!; [done | done |]. intros n' ?. lia.
    + intros (n & Hn & H & _). by rewrite drop_nil in H.
  - rewrite Hc. split.
    + destruct (Re.greedy k cont s) as [r'|] eqn:E.
      * intros [= ->]. destruct (proj1 IH eq_refl) as (n & Hn & H & Hlater).
        exists (S n). split_and!; [lia | done |].
        intros [|n'] ?; [lia|]. apply Hlater. lia.
      * intros H. exists 0%nat. split_and!; [lia | done |].
        intros [|n'] ?; [lia|]. simpl.
        by apply (proj1 (greedy_none k cont s Hs)).
    + intros (n & Hn & H & Hlater). destruct n as [|n].
      * assert (Re.greedy k cont s = None) as ->; [|done].
        apply greedy_none; [done|]. intros n.
        destruct (decide (n ≤ length s)%nat).
        -- apply (Hlater (S n)). lia.
        -- rewrite drop_ge by lia. rewrite <- (drop_all s).
           apply (Hlater (S (length s))). lia.
      * assert (Re.greedy k cont s = Some r) as ->; [|done].
        apply IH. exists n. split_and!; [lia | done |].
        intros n' ?. apply (Hlater (S n')). lia.
Qed.

Lemma search_none p s :
  Re.search p s = None ↔ ∀ i, Re.exec p (drop i s) [] = None.
Proof.
  induction s as [|c s IH]; simpl.
  - destruct (Re.exec p [] []) eqn:E; split; try done.
    + intros H. specialize (H 0%nat). simpl in H. congruence.
    + intros _ i. by rewrite drop_nil.
  - destruct (Re.exec p (c :: s) []) eqn:E; split; try done.
    + intros H. specialize (H 0%nat). simpl in H. congruence.
    + intros H [|i]; [done|]. simpl. by apply IH.
    + intros H. apply IH. intros i. apply (H (S i)).
Qed.

Lemma search_some p s m :
  Re.search p s = Some m ↔
  ∃ i, (i ≤ length s)%nat ∧ Re.exec p (drop i s) [] = Some m
       ∧ ∀ j, (j < i)%nat → Re.exec p (drop j s) [] = None.
Proof.
  induction s as [|c s IH]; simpl.
  - destruct (Re.exec p [] []) eqn:E; split.
    + intros [= ->]. exists 0%nat. split_and!; [done | done | lia].
    + intros (i & _ & H & _). rewrite drop_nil in H. congruence.
    + done.
    + intros (i & _ & H & _). rewrite drop_nil in H. congruence.
  - destruct (Re.exec p (c :: s) []) eqn:E; split.
    + intros [= ->]. exists 0%nat. split_and!; [lia | done | lia].
    + intros ([|i] & _ & H & Hbefore).
      * simpl in H. congruence.
      * specialize (Hbefore 0%nat). simpl in Hbefore.
        rewrite E in Hbefore. discriminate Hbefore. lia.
    + intros (i & Hi & H & Hbefore)%IH. exists (S i).
      split_and!; [lia | done |]. intros [|j] ?; [done|].
      simpl. apply Hbefore. lia.
    + intros ([|i] & Hi & H & Hbefore).
      * simpl in H. congruence.
      * apply IH. exists i. split_and!; [lia | done |].
        intros j ?. apply (Hbefore (S j)). lia.
Qed.

Lemma exec_literal l p s marks :
  Re.exec (Re.literal l ++ p) (l ++ s) marks = Re.exec p s marks.
Proof. induction l as [|c l IH]; simpl; [done|]. by rewrite N.eqb_refl. Qed.

Lemma exec_literal_inv l p s marks m :
  Re.exec (Re.literal l ++ p) s marks = Some m →
  ∃ s', s = l ++ s' ∧ Re.exec p s' marks = Some m.
Proof.
  revert s. induction l as [|c l IH]; simpl; intros s H.
  - by exists s.
  - destruct s as [|c' s]; [done|].
    destruct (c' =? c) eqn:E; [|done]. apply N.eqb_eq in E as ->.
    apply IH in H as (s' & -> & H). by exists s'.
Qed.

(** *** The page pattern at one position *)

Lemma exec_after_label s m :
  Re.exec after_label s [] = Some m ↔
  ∃ ws ds post,
    s = ws ++ ds ++ close_marker :: post
    ∧ Forall (λ c, is_space c = true) ws
    ∧ Forall (λ c, is_digit c = true) ds
    ∧ ds ≠ []
    ∧ m = ([ds ++ close_marker :: post; close_marker :: post], post).
Proof.
  unfold after_label. cbn [Re.exec app].
  rewrite greedy_commit; last first.
  { intros c s' Hc. cbn [Re.accepts] in *.
    by rewrite (space_not_digit c Hc). }
  destruct (skip_decompose Re.Space s) as (ws & Hs & Hws).
  cbn [Re.accepts] in Hws.
  split.
  - destruct (skip Re.Space s) as [|d s3] eqn:E; [done|].
    cbn [Re.accepts]. destruct (is_digit d) eqn:Hd; [|done].
    rewrite greedy_commit; last first.
    { intros c s' Hc. cbn [Re.exec Re.accepts app] in *.
      destruct (c =? close_marker) eqn:Ec; [|done].
      apply N.eqb_eq in Ec. by apply digit_not_close_marker in Hc. }
    destruct (skip_decompose Re.Digit s3) as (ds & Hs3 & Hds).
    cbn [Re.accepts] in Hds.
    cbn [Re.exec app]. destruct (skip Re.Digit s3) as [|c post]; [done|].
    cbn [Re.accepts]. destruct (c =? close_marker) eqn:Ec; [|done].
    apply N.eqb_eq in Ec as ->. intros [= <-].
    exists ws, (d :: ds), post. split_and!; try done.
    + by rewrite Hs, Hs3.
    + by constructor.
    + by rewrite Hs3.
  - intros (ws' & ds & post & -> & Hws' & Hds & Hne & ->).
    destruct ds as [|d ds]; [done|]. apply Forall_cons in Hds as [Hd Hds].
    rewrite skip_run; [|done|by cbn; apply digit_not_space].
    cbn [app Re.accepts]. rewrite Hd.
    rewrite greedy_commit; last first.
    { intros c s' Hc. cbn [Re.exec Re.accepts app] in *.
      destruct (c =? close_marker) eqn:Ec; [|done].
      apply N.eqb_eq in Ec. by apply digit_not_close_marker in Hc. }
    rewrite skip_run; [|done|by vm_compute].
    cbn [Re.exec Re.accepts app]. by rewrite N.eqb_refl.
Qed.

Lemma group1_marks ds rest post :
  Re.group1 ([ds ++ rest; rest], post) = ds.
Proof.
  unfold Re.group1. cbn [fst]. rewrite length_app.
  replace (length ds + length rest - length rest)%nat with (length ds) by lia.
  by rewrite take_app_length.
Qed.

Lemma drop_split (s : str) i :
  (i ≤ length s)%nat → ∃ pre, s = pre ++ drop i s ∧ length pre = i.
Proof.
  intros Hi. exists (take i s). split; [by rewrite take_drop|].
  rewrite length_take. lia.
Qed.

Lemma marker_at_exec line i n :
  marker_at line i n ↔
  (i ≤ length line)%nat
  ∧ ∃ m, Re.exec page_pattern (drop i line) [] = Some m
         ∧ int (Re.group1 m) = n.
Proof.
  unfold marker_at, page_pattern. split.
  - intros (pre & ws & ds & post & -> & <- & Hws & Hds & Hne & <-). split.
    + rewrite length_app. lia.
    + rewrite drop_app_length, exec_literal.
      eexists. split; [|by rewrite group1_marks].
      apply exec_after_label. by exists ws, ds, post.
  - intros [Hi (m & H & <-)].
    apply exec_literal_inv in H as (s' & Hs' & H).
    apply exec_after_label in H as (ws & ds & post & -> & Hws & Hds & Hne & ->).
    destruct (drop_split line i Hi) as (pre & Hline & Hpre).
    exists pre, ws, ds, post. rewrite group1_marks. split_and!; try done.
    by rewrite <- Hs'.
Qed.

Lemma marker_at_functional line i n n' :
  marker_at line i n → marker_at line i n' → n = n'.
Proof.
  intros [_ (m & Hm & <-)]%marker_at_exec [_ (m' & Hm' & <-)]%marker_at_exec.
  congruence.
Qed.

Lemma page_search_some line m :
  Re.search page_pattern line = Some m →
  first_marker line (int (Re.group1 m)).
Proof.
  intros (i & Hi & H & Hbefore)%search_some. exists i. split.
  - apply marker_at_exec. eauto.
  - intros j n Hj [_ (m' & Hm' & _)]%marker_at_exec.
    rewrite (Hbefore j Hj) in Hm'. discriminate.
Qed.

Lemma page_search_none line :
  Re.search page_pattern line = None ↔ ∀ i n, ¬ marker_at line i n.
Proof.
  rewrite search_none. split.
  - intros H i n [_ (m & Hm & _)]%marker_at_exec. by rewrite H in Hm.
  - intros H i. destruct (Re.exec page_pattern (drop i line) []) as [m|] eqn:E;
      [|done].
    destruct (decide (i ≤ length line)%nat) as [Hi|Hi].
    + destruct (H i (int (Re.group1 m))). apply marker_at_exec. eauto.
    + rewrite drop_ge in E by lia. rewrite <- (drop_all line) in E.
      destruct (H (length line) (int (Re.group1 m))).
      apply marker_at_exec. eauto.
Qed.

Lemma first_marker_search line n :
  first_marker line n →
  ∃ m, Re.search page_pattern line = Some m ∧ int (Re.group1 m) = n.
Proof.
  intros (i & Hi & Hfirst).
  destruct (Re.search page_pattern line) as [m|] eqn:E.
  - exists m. split; [done|].
    apply page_search_some in E as (i' & Hi' & Hfirst').
    destruct (lt_eq_lt_dec i i') as [[Hlt | ->] | Hlt].
    + by destruct (Hfirst' _ _ Hlt Hi).
    + by eapply marker_at_functional.
    + by destruct (Hfirst _ _ Hlt Hi').
  - destruct (proj1 (page_search_none line) E _ _ Hi).
Qed.

(** *** The dialogue pattern *)

Lemma except_close_quote d :
  Forall (λ c, Re.accepts (Re.Except close_quote) c = true) d
  ↔ (close_quote ∉ d).
Proof.
  rewrite Forall_forall. cbn [Re.accepts]. split.
  - intros H Hin. specialize (H _ Hin). by rewrite N.eqb_refl in H.
  - intros H c Hc. destruct (c =? close_quote) eqn:E; [|done].
    apply N.eqb_eq in E as ->. done.
Qed.

Lemma exec_quoted s m :
  Re.exec quoted s [] = Some m ↔
  ∃ d post,
    s = open_quote :: d ++ close_quote :: post
    ∧ d ≠ []
    ∧ (close_quote ∉ d)
    ∧ m = ([d ++ close_quote :: post; close_quote :: post], post).
Proof.
  unfold quoted. split.
  - destruct s as [|q s]; [done|]. cbn [Re.exec Re.accepts app].
    destruct (q =? open_quote) eqn:Eq; [|done]. apply N.eqb_eq in Eq as ->.
    destruct s as [|c s]; [done|].
    destruct (negb (c =? close_quote)) eqn:Ec; [|done].
    rewrite greedy_commit; last first.
    { intros c0 s0 Hc0. cbn in *. by destruct (c0 =? close_quote). }
    destruct (skip_decompose (Re.Except close_quote) s) as (d & Hs & Hd).
    cbn [Re.exec app]. destruct (skip (Re.Except close_quote) s) as [|c' post];
      [done|].
    cbn [Re.accepts]. destruct (c' =? close_quote) eqn:Ec'; [|done].
    apply N.eqb_eq in Ec' as ->. intros [= <-].
    exists (c :: d), post. split_and!; try done.
    + by rewrite Hs.
    + apply except_close_quote. by constructor.
    + by rewrite Hs.
  - intros (d & post & -> & Hne & Hd & ->).
    destruct d as [|c d]; [done|].
    apply except_close_quote, Forall_cons in Hd as [Hc Hd].
    cbn [Re.exec Re.accepts app] in *. rewrite N.eqb_refl, Hc.
    rewrite greedy_commit; last first.
    { intros c0 s0 Hc0. cbn in *. by destruct (c0 =? close_quote). }
    rewrite skip_run; [|done|by vm_compute].
    cbn [Re.exec Re.accepts app]. by rewrite N.eqb_refl.
Qed.

Lemma span_at_exec line j d :
  span_at line j d ↔
  (j ≤ length line)%nat
  ∧ ∃ m, Re.exec quoted (drop j line) [] = Some m ∧ Re.group1 m = d.
Proof.
  unfold span_at. split.
  - intros (pre & post & -> & <- & Hne & Hd). split.
    + rewrite length_app. lia.
    + rewrite drop_app_length. eexists. split; [|by rewrite group1_marks].
      apply exec_quoted. by exists d, post.
  - intros [Hj (m & H & <-)].
    apply exec_quoted in H as (d & post & Hs & Hne & Hd & ->).
    destruct (drop_split line j Hj) as (pre & Hline & Hpre).
    exists pre, post. rewrite group1_marks. split_and!; try done.
    by rewrite <- Hs.
Qed.

Lemma span_at_functional line j d d' :
  span_at line j d → span_at line j d' → d = d'.
Proof.
  intros [_ (m & Hm & <-)]%span_at_exec [_ (m' & Hm' & <-)]%span_at_exec.
  congruence.
Qed.

Lemma dot_accepts line :
  newline ∉ line → Forall (λ c, Re.accepts Re.Dot c = true) line.
Proof.
  intros H. apply Forall_forall. intros c Hc. cbn.
  destruct (c =? newline) eqn:E; [|done]. apply N.eqb_eq in E as ->. done.
Qed.

Lemma dialogue_exec_none line :
  newline ∉ line →
  Re.exec dialogue_re line [] = None ↔
  ∀ j, (1 ≤ j)%nat → Re.exec quoted (drop j line) [] = None.
Proof.
  intros Hnl. destruct line as [|c s].
  - split; [|done]. intros _ j _. by rewrite drop_nil.
  - apply dot_accepts, Forall_cons in Hnl as [Hc Hs].
    unfold dialogue_re. cbn [Re.exec]. rewrite Hc, greedy_none by done.
    split.
    + intros H [|j] ?; [lia|]. apply H.
    + intros H n. apply (H (S n)). lia.
Qed.

Lemma dialogue_exec_some line m :
  newline ∉ line →
  Re.exec dialogue_re line [] = Some m ↔
  ∃ j, (1 ≤ j ≤ length line)%nat
       ∧ Re.exec quoted (drop j line) [] = Some m
       ∧ ∀ j', (j < j' ≤ length line)%nat →
               Re.exec quoted (drop j' line) [] = None.
Proof.
  intros Hnl. destruct line as [|c s].
  - split; [done|]. intros (j & Hj & _). simpl in Hj. lia.
  - apply dot_accepts, Forall_cons in Hnl as [Hc Hs].
    unfold dialogue_re. cbn [Re.exec]. rewrite Hc, greedy_some by done.
    split.
    + intros (n & Hn & H & Hlater). exists (S n).
      split_and!; [lia | simpl; lia | done |].
      intros [|j'] Hj'; [lia|]. apply Hlater. simpl in Hj'. lia.
    + intros ([|j] & Hj & H & Hlater); [lia|]. exists j.
      simpl in Hj. split_and!; [lia | done |].
      intros n' ?. apply (Hlater (S n')). simpl. lia.
Qed.

(** On a line without a newline, [.+] can start at the first character
    whenever it can start anywhere. *)
Lemma dialogue_search_exec line :
  newline ∉ line →
  Re.search dialogue_re line = Re.exec dialogue_re line [].
Proof.
  intros Hnl. destruct (Re.exec dialogue_re line []) as [m|] eqn:E.
  - apply search_some. exists 0%nat. split_and!; [lia | done | lia].
  - apply search_none. intros i. apply dialogue_exec_none.
    + intros Hin. apply Hnl. by eapply subseteq_drop.
    + intros j Hj. rewrite drop_drop.
      apply (proj1 (dialogue_exec_none line Hnl) E). lia.
Qed.

(** [re.search] with the dialogue pattern captures the last quoted span
    that has at least one character before it ... *)
Lemma dialogue_search_some line m :
  newline ∉ line →
  Re.search dialogue_re line = Some m →
  ∃ j, (1 ≤ j)%nat ∧ span_at line j (Re.group1 m)
       ∧ ∀ j' d', span_at line j' d' → (j' ≤ j)%nat.
Proof.
  intros Hnl. rewrite dialogue_search_exec by done.
  intros H. apply (dialogue_exec_some line m Hnl) in H as (j & Hj & H & Hlater).
  exists j. split_and!; [lia | apply span_at_exec; split; [lia | eauto] |].
  intros j' d' [Hj' (m' & Hm' & _)]%span_at_exec.
  destruct (decide (j' ≤ j)%nat); [done|].
  rewrite Hlater in Hm' by lia. discriminate.
Qed.

(** ... and finds nothing only when no quoted span has a character
    before it. *)
Lemma dialogue_search_none line :
  newline ∉ line →
  Re.search dialogue_re line = None →
  ∀ j d, span_at line j d → j = 0%nat.
Proof.
  intros Hnl. rewrite dialogue_search_exec by done.
  intros H j d [Hj (m & Hm & _)]%span_at_exec.
  destruct j as [|j]; [done|].
  rewrite (proj1 (dialogue_exec_none line Hnl) H) in Hm by lia. discriminate.
Qed.

Lemma split_no_sep sep s line : line ∈ split sep s → sep ∉ line.
Proof.
  revert line. induction s as [|c s IH]; simpl; intros line.
  - intros ->%list_elem_of_singleton. apply not_elem_of_nil.
  - destruct (c =? sep) eqn:E.
    + intros [-> | H]%elem_of_cons; [apply not_elem_of_nil | by apply IH].
    + destruct (split sep s) as [|l ls] eqn:Es.
      * intros ->%list_elem_of_singleton. apply N.eqb_neq in E.
        intros [-> | H]%elem_of_cons; [done | by apply elem_of_nil in H].
      * intros [-> | H]%elem_of_cons.
        -- apply N.eqb_neq in E. intros [-> | H]%elem_of_cons; [done|].
           revert H. apply IH. left.
        -- apply IH. by right.
Qed.

(** ** The parsing loop *)

Lemma process_line_marker pages cur line m :
  Re.search page_pattern line = Some m →
  process_line (pages, cur) line
  = Some (match pages !! int (Re.group1 m) with
          | Some _ => pages
          | None => <[int (Re.group1 m) := []]> pages
          end, Some (int (Re.group1 m))).
Proof. intros H. unfold process_line. by rewrite H. Qed.

Lemma process_line_inactive pages line :
  Re.search page_pattern line = None →
  process_line (pages, None) line = Some (pages, None).
Proof. intros H. unfold process_line. by rewrite H. Qed.

Lemma process_line_annotation pages p line :
  Re.search page_pattern line = None →
  is_annotation line = true →
  process_line (pages, Some p) line = Some (pages, Some p).
Proof. intros H Ha. unfold process_line. by rewrite H, Ha. Qed.

Lemma process_line_dialogue pages p ds line m :
  Re.search page_pattern line = None →
  is_annotation line = false →
  Re.search dialogue_re line = Some m →
  pages !! p = Some ds →
  process_line (pages, Some p) line
  = Some (<[p := ds ++ [Re.group1 m]]> pages, Some p).
Proof. intros H Ha Hd Hp. unfold process_line. by rewrite H, Ha, Hd, Hp. Qed.

Lemma process_line_silent pages p line :
  Re.search page_pattern line = None →
  Re.search dialogue_re line = None →
  process_line (pages, Some p) line = Some (pages, Some p).
Proof.
  intros H Hd. unfold process_line. rewrite H, Hd.
  by destruct (is_annotation line).
Qed.

(** One iteration keeps the invariant, does not raise, and adds to the
    keys exactly the number of the first marker of the line. *)
Lemma process_line_step st line :
  active_ok st →
  ∃ st', process_line st line = Some st'
         ∧ active_ok st'
         ∧ ∀ n, n ∈ dom st'.1 ↔ n ∈ dom st.1 ∨ first_marker line n.
Proof.
  destruct st as [pages cur]. intros Hok.
  destruct (Re.search page_pattern line) as [m|] eqn:Ep.
  - rewrite (process_line_marker _ _ _ _ Ep). eexists. split; [done|].
    pose proof (page_search_some _ _ Ep) as Hfirst.
    set (k := int (Re.group1 m)) in *. split.
    + intros p [= <-]. simpl.
      destruct (pages !! k) eqn:E; [by rewrite E|].
      rewrite lookup_insert_eq. eauto.
    + intros n. simpl. split.
      * destruct (pages !! k) eqn:E; [by left|].
        rewrite dom_insert_L. intros [->%elem_of_singleton | H]%elem_of_union;
          [by right | by left].
      * intros [H | (m' & Hm' & <-)%first_marker_search].
        -- destruct (pages !! k); [done|]. rewrite dom_insert_L. set_solver.
        -- assert (m' = m) as -> by congruence. fold k.
           destruct (pages !! k) eqn:E; [apply elem_of_dom; eauto|].
           rewrite dom_insert_L. set_solver.
  - assert (∀ n, ¬ first_marker line n) as Hnone.
    { intros n (i & Hi & _). by apply (proj1 (page_search_none line) Ep i n). }
    assert (∀ (st' : pstate), st' = (pages, cur) →
      active_ok st' ∧ ∀ n, n ∈ dom st'.1 ↔ n ∈ dom pages ∨ first_marker line n)
      as Hsame.
    { intros st' ->. split; [done|]. intros n. split; [by left|].
      intros [H | H]; [done | by destruct (Hnone n)]. }
    destruct cur as [p|]; [|rewrite process_line_inactive by done; eauto].
    destruct (is_annotation line) eqn:Ea;
      [rewrite process_line_annotation by done; eauto|].
    destruct (Re.search dialogue_re line) as [m|] eqn:Ed;
      [|rewrite process_line_silent by done; eauto].
    destruct (Hok p eq_refl) as [ds Hds].
    rewrite (process_line_dialogue _ _ ds _ m) by done.
    eexists. split; [done|]. simpl. split.
    + intros p' [= <-]. simpl. rewrite lookup_insert_eq. eauto.
    + intros n. rewrite dom_insert_L. split.
      * intros [->%elem_of_singleton | H]%elem_of_union; left; [|done].
        apply elem_of_dom. eauto.
      * intros [H | H]; [apply elem_of_union; by right | by destruct (Hnone n)].
Qed.

Lemma process_lines_steps lines : ∀ st,
  active_ok st →
  ∃ st', process_lines st lines = Some st'
         ∧ active_ok st'
         ∧ ∀ n, n ∈ dom st'.1 ↔
                n ∈ dom st.1 ∨ ∃ line, line ∈ lines ∧ first_marker line n.
Proof.
  induction lines as [|line lines IH]; intros st Hok; simpl.
  - exists st. split_and!; [done | done |]. intros n. split; [by left|].
    intros [H | (line & Hin & _)]; [done | by apply elem_of_nil in Hin].
  - destruct (process_line_step st line Hok) as (st1 & -> & Hok1 & Hdom1).
    destruct (IH st1 Hok1) as (st' & -> & Hok' & Hdom').
    exists st'. split_and!; [done | done |]. intros n.
    rewrite Hdom', Hdom1. split.
    + intros [[H | H] | (l & Hl & H)]; [by left | right | right].
      * exists line. split; [left | done].
      * exists l. split; [by right | done].
    + intros [H | (l & [-> | Hl]%elem_of_cons & H)].
      * by left; left.
      * by left; right.
      * right. eauto.
Qed.

Lemma active_ok_init : active_ok (∅, None).
Proof. by intros p. Qed.

(** [parse_script] returns on every text. *)
Lemma parse_script_total content : is_Some (parse_script content).
Proof.
  unfold parse_script.
  destruct (process_lines_steps (split newline content) _ active_ok_init)
    as ([pages cur] & -> & _). eauto.
Qed.

(** The keys of the table returned for a text. *)
Lemma parse_script_dom content :
  ∃ pages, parse_script content = Some pages
    ∧ ∀ n, n ∈ dom pages ↔
           ∃ line, line ∈ split newline content ∧ first_marker line n.
Proof.
  unfold parse_script.
  destruct (process_lines_steps (split newline content) _ active_ok_init)
    as ([pages cur] & -> & _ & Hdom).
  exists pages. split; [done|]. intros n. rewrite Hdom. simpl. split.
  - intros [H | H]; [|done]. by rewrite dom_empty_L in H.
  - by right.
Qed.

(** ** Annotation lines *)

Lemma lstrip_run ws c rest :
  Forall (λ c, is_space c = true) ws → is_space c = false →
  lstrip (ws ++ c :: rest) = c :: rest.
Proof.
  intros Hws Hc. induction Hws as [|w ws Hw _ IH]; simpl.
  - by rewrite Hc.
  - by rewrite Hw.
Qed.

Lemma lstrip_decompose s :
  ∃ ws, s = ws ++ lstrip s ∧ Forall (λ c, is_space c = true) ws.
Proof.
  induction s as [|c s (ws & Hs & Hws)]; simpl.
  - by exists [].
  - destruct (is_space c) eqn:E.
    + exists (c :: ws). split; [by rewrite <- app_comm_cons, <- Hs|].
      by constructor.
    + by exists [].
Qed.

Lemma lstrip_head s c rest : lstrip s = c :: rest → is_space c = false.
Proof.
  induction s as [|a s IH]; simpl; [done|].
  destruct (is_space a) eqn:E; [done|]. by intros [= <- _].
Qed.

Lemma lstrip_snoc l c :
  is_space c = false → ∃ l', lstrip (l ++ [c]) = l' ++ [c].
Proof.
  intros Hc. induction l as [|a l (l' & IH)]; simpl.
  - rewrite Hc. by exists [].
  - destruct (is_space a); [by exists l' | by exists (a :: l)].
Qed.

Lemma rstrip_head c rest :
  is_space c = false → ∃ rest', rstrip (c :: rest) = c :: rest'.
Proof.
  intros Hc. unfold rstrip. simpl.
  destruct (lstrip_snoc (rev rest) c Hc) as (l' & ->).
  exists (rev l'). by rewrite rev_app_distr.
Qed.

Lemma startswith_one s c : startswith s [c] = true ↔ ∃ rest, s = c :: rest.
Proof.
  destruct s as [|a s]; simpl.
  - split; [done | by intros (rest & ?)].
  - rewrite andb_true_r, N.eqb_eq. split.
    + intros ->. by exists s.
    + by intros (rest & [= -> _]).
Qed.

Lemma trimmed_starts_strip line c :
  is_space c = false →
  trimmed_starts line c ↔ startswith (strip line) [c] = true.
Proof.
  intros Hc. rewrite startswith_one. unfold strip. split.
  - intros (ws & rest & -> & Hws). rewrite lstrip_run by done.
    by apply rstrip_head.
  - intros (rest & H).
    destruct (lstrip_decompose line) as (ws & Hline & Hws).
    destruct (lstrip line) as [|a t] eqn:E; [done|].
    destruct (rstrip_head a t (lstrip_head _ _ _ E)) as (t' & Ht).
    rewrite Ht in H. injection H as -> _. by exists ws, t.
Qed.

Lemma is_annotation_spec line :
  is_annotation line = true ↔
  trimmed_starts line wide_paren ∨ trimmed_starts line square_bracket.
Proof.
  unfold is_annotation.
  rewrite orb_true_iff, !trimmed_starts_strip by done. done.
Qed.

Lemma is_annotation_false line :
  ¬ trimmed_starts line wide_paren → ¬ trimmed_starts line square_bracket →
  is_annotation line = false.
Proof.
  intros H1 H2. destruct (is_annotation line) eqn:E; [|done].
  apply is_annotation_spec in E as [? | ?]; done.
Qed.

Lemma not_in_check (c : N) (s : str) : bool_decide (c ∈ s) = false → c ∉ s.
Proof. apply bool_decide_eq_false. Qed.



(** ** The claims about the parser *)

(** C1. Scenario A: the lines 【Page 1】, Alice「Hello」, （stage
    direction）, 【Page 2】, Bob「Goodbye」 parse to the table that maps 1
    to ["Hello"] and 2 to ["Goodbye"], and has no other key. *)
Theorem scenario_A_table :
  parse_script scenario_A
  = Some {[ 1%Z := [py "Hello"]; 2%Z := [py "Goodbye"] ]}.
Proof. vm_compute. reflexivity. Qed.



(** C3, as stated, fails: under page 1, the line A「x」B「y」 has the
    first quoted span 「x」, and the dialogue appended is y. *)
Lemma second_span_is_extracted : ¬ first_span_extracted two_spans.
Proof.
  intros H.
  destruct (H {[ 1%Z := [] ]} 1%Z [] ltac:(by vm_compute)) as (j & d & Hj & Hd & Hmin & Hp).
  assert (span_at two_spans 1 (py "x")) as Hx.
  { exists (py "A"), (py "B「y」"). split_and!; try done.
    by apply not_in_check. }
  assert (j = 1%nat) as -> by (specialize (Hmin 1%nat _ (le_n 1) Hx); lia).
  rewrite (span_at_functional _ _ _ _ Hd Hx) in Hp.
  apply (f_equal (λ o, st ← o; (st.1 : PageTable) !! 1%Z)) in Hp.
  by vm_compute in Hp.
Qed.

(** C3, amended.  A line of the text that is neither a marker line nor an
    annotation line and has more than one quoted span adds, under an
    active page, exactly one dialogue: the content of its last quoted
    span. *)
Theorem last_span_extracted content line (pages : PageTable) p ds j1 d1 j2 d2 :
  line ∈ split newline content →
  (∀ i n, ¬ marker_at line i n) →
  ¬ trimmed_starts line wide_paren →
  ¬ trimmed_starts line square_bracket →
  pages !! p = Some ds →
  span_at line j1 d1 → span_at line j2 d2 → j1 ≠ j2 →
  ∃ j d, span_at line j d
         ∧ (∀ j' d', span_at line j' d' → (j' ≤ j)%nat)
         ∧ process_line (pages, Some p) line
           = Some (<[p := ds ++ [d]]> pages, Some p).
Proof.
  intros Hnl%split_no_sep Hpage%page_search_none Ha1 Ha2 Hp H1 H2 Hne.
  pose proof (is_annotation_false line Ha1 Ha2) as Ha.
  destruct (Re.search dialogue_re line) as [m|] eqn:Em.
  - destruct (dialogue_search_some line m Hnl Em) as (j & _ & Hspan & Hlast).
    exists j, (Re.group1 m). split_and!; [done | done |].
    by apply process_line_dialogue.
  - pose proof (dialogue_search_none line Hnl Em j1 d1 H1).
    pose proof (dialogue_search_none line Hnl Em j2 d2 H2). congruence.
Qed.

Lemma last_span_extracted_witness :
  ∃ j d, span_at two_spans j d
         ∧ (∀ j' d', span_at two_spans j' d' → (j' ≤ j)%nat)
         ∧ process_line ({[ 1%Z := [] ]}, Some 1%Z) two_spans
           = Some (<[1%Z := [] ++ [d]]> {[ 1%Z := [] ]}, Some 1%Z).
Proof.
  apply (last_span_extracted two_spans two_spans {[ 1%Z := [] ]} 1%Z []
           1%nat (py "x") 5%nat (py "y")).
  - by left.
  - by apply page_search_none; vm_compute.
  - intros H. by apply (or_introl (B := trimmed_starts two_spans square_bracket)),
      is_annotation_spec in H; vm_compute in H.
  - intros H. by apply (or_intror (A := trimmed_starts two_spans wide_paren)),
      is_annotation_spec in H; vm_compute in H.
  - by vm_compute.
  - exists (py "A"), (py "B「y」"). split_and!; try done.
    by apply not_in_check.
  - exists (py "A「x」B"), []. split_and!; try done.
    by apply not_in_check.
  - lia.
Defined.






(** ** The presenter *)

Lemma bind_done {A B} tr (a : A) (f : A → proc B) :
  (tr, Done a) ≫= f = (tr ++ (f a).1, (f a).2).
Proof. unfold mbind, proc_mbind, proc_bind. by destruct (f a). Qed.

Lemma print_bind {B} text (f : unit → proc B) :
  print text ≫= f = (Print text :: (f tt).1, (f tt).2).
Proof. unfold print. by rewrite bind_done. Qed.

Lemma for_each_done {A} (l : list A) (body : A → proc unit) tr :
  (∀ x, x ∈ l → body x = (tr x, Done tt)) →
  for_each l body = (concat (map tr l), Done tt).
Proof.
  induction l as [|x l IH]; intros Hbody; simpl; [done|].
  rewrite (Hbody x) by left. rewrite bind_done, IH; [done|].
  intros y Hy. apply Hbody. by right.
Qed.

Lemma for_each_enumerate (ds : list str) start (g : Z → str → str) :
  for_each (enumerate ds start) (λ '(i, d), print (g i d))
  = (imap (λ i d, Print (g (start + Z.of_nat i)%Z d)) ds, Done tt).
Proof.
  revert start. induction ds as [|d ds IH]; intros start; [done|].
  cbn [for_each enumerate]. rewrite print_bind, IH.
  cbn [fst snd app imap]. rewrite Z.add_0_r. do 2 f_equal.
  apply imap_ext. intros i x _. cbn. do 2 f_equal. lia.
Qed.

Lemma sorted_keys_elem (pages : PageTable) k :
  k ∈ sorted_keys pages ↔ is_Some (pages !! k).
Proof.
  unfold sorted_keys. rewrite merge_sort_Permutation, list_elem_of_fmap. split.
  - intros ([k' v] & -> & H%elem_of_map_to_list). eauto.
  - intros [v H]. exists (k, v). split; [done|]. by apply elem_of_map_to_list.
Qed.

Lemma strictly_sorted (l : list Z) :
  StronglySorted Z.le l → NoDup l → StronglySorted Z.lt l.
Proof.
  induction 1 as [|x l Hl IH Hx]; intros Hnd; [constructor|].
  apply NoDup_cons in Hnd as [Hnotin Hnd]. constructor; [by apply IH|].
  rewrite Forall_forall in *. intros y Hy.
  specialize (Hx y Hy). assert (x ≠ y) by (by intros ->). lia.
Qed.

Lemma sorted_keys_ascending (pages : PageTable) :
  ascending_keys pages (sorted_keys pages).
Proof.
  split; [|apply sorted_keys_elem]. apply strictly_sorted.
  - apply StronglySorted_merge_sort; apply _.
  - unfold sorted_keys. rewrite merge_sort_Permutation.
    apply NoDup_fst_map_to_list.
Qed.

Lemma join_cons sep (d : str) rest :
  join sep (d :: rest) = d ++ concat (map (app sep) rest).
Proof.
  revert d. induction rest as [|x rest IH]; intros d.
  - simpl. by rewrite app_nil_r.
  - change (join sep (d :: x :: rest)) with (d ++ sep ++ join sep (x :: rest)).
    rewrite IH. simpl. by rewrite <- app_assoc.
Qed.

Lemma copy_page_dialogues_success (pages : PageTable) page_num d rest :
  pages !! page_num = Some (d :: rest) →
  copy_page_dialogues pages page_num
  = ([Pbcopy (join [newline; newline] (d :: rest));
      Print (py "【Page " ++ str_of_int page_num ++ py "】 "
             ++ str_of_int (Z.of_nat (length (d :: rest)))
             ++ py "個のセリフをコピーしました");
      Print (times (py "=") 50);
      Print (join [newline; newline] (d :: rest));
      Print (times (py "=") 50);
      Print (py "クリップボードにコピー完了！")], Done tt).
Proof. intros H. unfold copy_page_dialogues. by rewrite H. Qed.

Lemma list_pages_trace (pages : PageTable) :
  list_pages pages
  = (banner ++ concat (map (λ k, page_listing k (default [] (pages !! k)))
                           (sorted_keys pages)), Done tt).
Proof.
  unfold list_pages.
  rewrite (for_each_done _ _
             (λ k, page_listing k (default [] (pages !! k)))); [done|].
  intros k [ds Hk]%sorted_keys_elem. rewrite Hk. cbv beta iota.
  by rewrite print_bind, for_each_enumerate.
Qed.

(** ** The claims about the presenter *)

(** C5.  In single-page mode a page that is not a key yields two lines,
    one naming the page and one listing the keys in ascending order, and
    exit status 1; a page without dialogue yields one line, a different
    one, and exit status 1.  Neither case pipes anything to [pbcopy]. *)
Theorem copy_page_errors (pages : PageTable) page_num :
  ascending_keys pages (sorted_keys pages)
  ∧ page_not_found_msg page_num ≠ page_empty_msg page_num
  ∧ (pages !! page_num = None →
     copy_page_dialogues pages page_num
     = ([Print (page_not_found_msg page_num);
         Print (py "利用可能なページ: " ++ str_of_list (sorted_keys pages))],
        SysExit 1))
  ∧ (pages !! page_num = Some [] →
     copy_page_dialogues pages page_num
     = ([Print (page_empty_msg page_num)], SysExit 1)).
Proof.
  split_and!.
  - apply sorted_keys_ascending.
  - unfold page_not_found_msg, page_empty_msg. intros H.
    apply (f_equal (λ s : str, s !! 0%nat)) in H. by vm_compute in H.
  - intros H. unfold copy_page_dialogues. by rewrite H.
  - intros H. unfold copy_page_dialogues. by rewrite H.
Qed.

Lemma copy_page_errors_witness :
  copy_page_dialogues two_pages 9
  = ([Print (page_not_found_msg 9);
      Print (py "利用可能なページ: " ++ str_of_list (sorted_keys two_pages))],
     SysExit 1)
  ∧ copy_page_dialogues two_pages 2
    = ([Print (page_empty_msg 2)], SysExit 1).
Proof.
  split.
  - apply (copy_page_errors two_pages 9). by vm_compute.
  - apply (copy_page_errors two_pages 2). by vm_compute.
Defined.

(** C6.  In single-page mode a page with dialogues pipes to [pbcopy] the
    first dialogue followed by each further one after two newlines, then
    prints a header line, a rule, that same text, a rule and a closing
    line, and returns. *)
Theorem copy_page_success (pages : PageTable) page_num d rest :
  pages !! page_num = Some (d :: rest) →
  let all_text := d ++ concat (map (app [newline; newline]) rest) in
  copy_page_dialogues pages page_num
  = ([Pbcopy all_text;
      Print (py "【Page " ++ str_of_int page_num ++ py "】 "
             ++ str_of_int (Z.of_nat (length (d :: rest)))
             ++ py "個のセリフをコピーしました");
      Print (times (py "=") 50);
      Print all_text;
      Print (times (py "=") 50);
      Print (py "クリップボードにコピー完了！")], Done tt).
Proof.
  intros H all_text. rewrite (copy_page_dialogues_success _ _ _ _ H).
  by rewrite join_cons.
Qed.

Lemma copy_page_success_witness :
  let all_text := py "Hello" ++ concat (map (app [newline; newline]) [py "Bye"]) in
  copy_page_dialogues {[ 7%Z := [py "Hello"; py "Bye"] ]} 7
  = ([Pbcopy all_text;
      Print (py "【Page " ++ str_of_int 7 ++ py "】 "
             ++ str_of_int (Z.of_nat (length [py "Hello"; py "Bye"]))
             ++ py "個のセリフをコピーしました");
      Print (times (py "=") 50);
      Print all_text;
      Print (times (py "=") 50);
      Print (py "クリップボードにコピー完了！")], Done tt).
Proof.
  apply (copy_page_success {[ 7%Z := [py "Hello"; py "Bye"] ]} 7
           (py "Hello") [py "Bye"]).
  by vm_compute.
Defined.

(** C7.  A text without any page marker parses to the empty table, and
    [main] on a file with that text prints the no-pages error and exits
    with status 1, whatever the options are. *)
Theorem no_markers_no_pages content :
  (∀ n, ¬ marked content n) →
  parse_script content = Some ∅
  ∧ ∀ fs a, fs (arg_script_file a) = Some content →
            main fs a = ([Print no_pages_msg], SysExit 1).
Proof.
  intros Hnone.
  assert (parse_script content = Some ∅) as Hparse.
  { destruct (parse_script_dom content) as (pages & Hp & Hdom).
    rewrite Hp. f_equal. apply dom_empty_iff_L, set_eq. intros n.
    rewrite Hdom. split; [|by intros ?%not_elem_of_empty].
    intros (line & Hline & i & Hi & _). destruct (Hnone n).
    by exists line, i. }
  split; [done|]. intros fs a Hfs. unfold main. rewrite Hfs, Hparse.
  rewrite decide_True by done. by vm_compute.
Qed.

Lemma no_markers_no_pages_witness :
  parse_script (py "Alice「Hello」") = Some ∅
  ∧ ∀ fs a, fs (arg_script_file a) = Some (py "Alice「Hello」") →
            main fs a = ([Print no_pages_msg], SysExit 1).
Proof.
  apply no_markers_no_pages.
  intros n (line & i & Hline & Hm). revert Hm.
  apply list_elem_of_singleton in Hline as ->.
  by apply page_search_none; vm_compute.
Defined.




(** C9.  The page list prints its heading and then, for each key in
    ascending order, the page line with the number of dialogues and one
    numbered line per dialogue.  A dialogue of at most 30 characters is
    shown as it is, a longer one as its first 30 characters followed by
    three dots.  The table itself keeps the full text: copying a page
    after listing pipes the untruncated dialogues to [pbcopy]. *)
Theorem list_pages_output (pages : PageTable) :
  ascending_keys pages (sorted_keys pages)
  ∧ list_pages pages
    = (banner ++ concat (map (λ k, page_listing k (default [] (pages !! k)))
                             (sorted_keys pages)), Done tt)
  ∧ (∀ d, ((length d ≤ 30)%nat → display d = d)
          ∧ ((30 < length d)%nat →
             display d = take 30 d ++ py "..."
             ∧ length (take 30 d) = 30%nat))
  ∧ (∀ n d rest, pages !! n = Some (d :: rest) →
       Pbcopy (join [newline; newline] (d :: rest))
       ∈ (list_pages pages ;; copy_page_dialogues pages n).1).
Proof.
  split_and!.
  - apply sorted_keys_ascending.
  - apply list_pages_trace.
  - intros d. unfold display. split; intros H.
    + by rewrite (proj2 (Nat.ltb_ge 30 (length d))).
    + rewrite (proj2 (Nat.ltb_lt 30 (length d))) by done.
      split; [done|]. rewrite length_take. lia.
  - intros n d rest H.
    rewrite list_pages_trace, bind_done, (copy_page_dialogues_success _ _ _ _ H).
    cbn [fst]. apply elem_of_app. right. left.
Qed.

Lemma list_pages_output_witness :
  display (times (py "a") 40) = take 30 (times (py "a") 40) ++ py "..."
  ∧ Pbcopy (join [newline; newline] [times (py "a") 40])
    ∈ (list_pages long_page ;; copy_page_dialogues long_page 1).1.
Proof.
  destruct (list_pages_output long_page) as (_ & _ & Hshow & Hcopy). split.
  - apply (Hshow (times (py "a") 40)). vm_compute. lia.
  - apply Hcopy. by vm_compute.
Defined.

(** ** Further properties of the parser *)

Lemma split_nonempty sep s : ∃ l ls, split sep s = l :: ls.
Proof.
  destruct s as [|c s]; simpl; [by eexists _, _|].
  destruct (c =? sep); [by eexists _, _|].
  destruct (split sep s); by eexists _, _.
Qed.

(** Splitting a text at one of its separators splits each side. *)
Lemma split_app sep a b :
  split sep (a ++ sep :: b) = split sep a ++ split sep b.
Proof.
  induction a as [|c a IH]; simpl.
  - by rewrite N.eqb_refl.
  - destruct (c =? sep); [by rewrite IH|]. rewrite IH.
    by destruct (split_nonempty sep a) as (l & ls & ->).
Qed.

Lemma process_lines_app st l1 l2 :
  process_lines st (l1 ++ l2)
  = st' ← process_lines st l1; process_lines st' l2.
Proof.
  revert st. induction l1 as [|line l1 IH]; intros st; [done|].
  cbn [process_lines app]. destruct (process_line st line) as [st1|];
    [apply IH | done].
Qed.

Lemma process_lines_inactive (pages : PageTable) lines :
  (∀ line i n, line ∈ lines → ¬ marker_at line i n) →
  process_lines (pages, None) lines = Some (pages, None).
Proof.
  induction lines as [|line lines IH]; intros Hnone; [done|].
  cbn [process_lines]. rewrite process_line_inactive.
  - apply IH. intros l i n Hl. apply Hnone. by right.
  - apply page_search_none. intros i n. apply Hnone. left.
Qed.

Lemma parse_script_app a b :
  parse_script (a ++ newline :: b)
  = match process_lines (∅, None) (split newline a) with
    | Some st => fst <$> process_lines st (split newline b)
    | None => None
    end.
Proof.
  unfold parse_script. rewrite split_app, process_lines_app.
  destruct (process_lines (∅, None) (split newline a)) as [st|]; [|done].
  simpl. by destruct (process_lines st (split newline b)) as [[pages cur]|].
Qed.

(** X1.  Text before the first page marker is discarded: a text whose
    first lines hold no marker parses like the text without them. *)
Theorem prelude_discarded prelude rest :
  (∀ n, ¬ marked prelude n) →
  parse_script (prelude ++ newline :: rest) = parse_script rest.
Proof.
  intros Hnone. rewrite parse_script_app, process_lines_inactive.
  - unfold parse_script.
    by destruct (process_lines (∅, None) (split newline rest)) as [[pages cur]|].
  - intros line i n Hline Hm. apply (Hnone n). by exists line, i.
Qed.

Lemma prelude_discarded_witness :
  parse_script (py "Alice「Hello」" ++ newline :: scenario_A)
  = parse_script scenario_A.
Proof.
  apply prelude_discarded.
  intros n (line & i & Hline & Hm). revert Hm.
  apply list_elem_of_singleton in Hline as ->.
  by apply page_search_none; vm_compute.
Defined.








Lemma span_well_formed line j d :
  newline ∉ line → span_at line j d → well_formed_dialogue d.
Proof.
  intros Hnl (pre & post & -> & _ & Hne & Hcq). split_and!; [done | done |].
  intros Hin. apply Hnl. apply elem_of_app. right. right.
  apply elem_of_app. by left.
Qed.

Lemma process_line_well_formed st line st' :
  newline ∉ line → process_line st line = Some st' →
  all_well_formed st.1 → all_well_formed st'.1.
Proof.
  destruct st as [pages cur]. intros Hnl.
  destruct (Re.search page_pattern line) as [m|] eqn:Ep.
  - rewrite (process_line_marker _ _ _ _ Ep). intros [= <-] Hwf. simpl in *.
    destruct (pages !! int (Re.group1 m)) eqn:E; [done|].
    intros k ds d Hk Hd. apply lookup_insert_Some in Hk as [[_ <-] | [_ Hk]].
    + by apply elem_of_nil in Hd.
    + by eapply Hwf.
  - destruct cur as [p|];
      [|rewrite process_line_inactive by done; by intros [= <-]].
    destruct (is_annotation line) eqn:Ea;
      [rewrite process_line_annotation by done; by intros [= <-]|].
    destruct (Re.search dialogue_re line) as [m|] eqn:Em;
      [|rewrite process_line_silent by done; by intros [= <-]].
    unfold process_line. rewrite Ep, Ea, Em.
    destruct (pages !! p) as [ds|] eqn:Hp; [|done]. intros [= <-] Hwf.
    simpl in *. intros k ds' d Hk Hd.
    apply lookup_insert_Some in Hk as [[_ <-] | [_ Hk]]; [|by eapply Hwf].
    apply elem_of_app in Hd as [Hd | ->%list_elem_of_singleton];
      [by eapply Hwf|].
    destruct (dialogue_search_some line m Hnl Em) as (j & _ & Hspan & _).
    by eapply span_well_formed.
Qed.

Lemma process_lines_well_formed lines : ∀ st st',
  (∀ line, line ∈ lines → newline ∉ line) →
  process_lines st lines = Some st' →
  all_well_formed st.1 → all_well_formed st'.1.
Proof.
  induction lines as [|line lines IH]; intros st st' Hnl;
    cbn [process_lines].
  - by intros [= <-].
  - destruct (process_line st line) as [st1|] eqn:E; [|done]. intros H Hwf.
    apply (IH st1 st'); [intros l Hl; apply Hnl; by right | done |].
    eapply process_line_well_formed; [apply Hnl; left | done | done].
Qed.

Lemma parse_script_well_formed content pages :
  parse_script content = Some pages → all_well_formed pages.
Proof.
  unfold parse_script.
  destruct (process_lines (∅, None) (split newline content))
    as [[pages' cur]|] eqn:E; [|done].
  intros [= <-].
  apply (process_lines_well_formed _ _ _ (split_no_sep newline content) E).
  intros k ds d Hk. simpl in Hk. by rewrite lookup_empty in Hk.
Qed.

(** X4.  Every dialogue that [parse_script] stores is non-empty and
    holds neither the closing quote 」 nor a newline. *)
Theorem stored_dialogues_well_formed content pages k ds d :
  parse_script content = Some pages →
  pages !! k = Some ds → d ∈ ds →
  d ≠ [] ∧ (close_quote ∉ d) ∧ (newline ∉ d).
Proof. intros Hp Hk Hd. by apply (parse_script_well_formed _ _ Hp k ds d). Qed.

Lemma stored_dialogues_well_formed_witness :
  py "Hello" ≠ [] ∧ (close_quote ∉ py "Hello") ∧ (newline ∉ py "Hello").
Proof.
  apply (stored_dialogues_well_formed scenario_A
           {[ 1%Z := [py "Hello"]; 2%Z := [py "Goodbye"] ]} 1%Z [py "Hello"]).
  - by vm_compute.
  - by vm_compute.
  - left.
Defined.

Lemma digit_value_nonneg c : (0 ≤ digit_value c)%Z.
Proof. unfold digit_value. destruct (find _ _); lia. Qed.

Lemma int_nonneg s : (0 ≤ int s)%Z.
Proof.
  unfold int.
  assert (∀ acc, (0 ≤ acc)%Z →
    (0 ≤ fold_left (λ acc c, 10 * acc + digit_value c) s acc)%Z) as H.
  { induction s as [|c s IH]; intros acc Hacc; simpl; [done|].
    apply IH. pose proof (digit_value_nonneg c). lia. }
  by apply H.
Qed.

Lemma marker_at_nonneg line i n : marker_at line i n → (0 ≤ n)%Z.
Proof. intros (? & ? & ds & ? & _ & _ & _ & _ & _ & <-). apply int_nonneg. Qed.

(** X5.  The keys of a parsed table are never negative, so a request for
    a negative page always ends in the page-not-found error. *)
Theorem negative_page_not_found content pages n :
  parse_script content = Some pages →
  (∀ k, is_Some (pages !! k) → (0 ≤ k)%Z)
  ∧ ((n < 0)%Z →
     copy_page_dialogues pages n
     = ([Print (page_not_found_msg n);
         Print (py "利用可能なページ: " ++ str_of_list (sorted_keys pages))],
        SysExit 1)).
Proof.
  intros Hp.
  assert (∀ k, is_Some (pages !! k) → (0 ≤ k)%Z) as Hkeys.
  { destruct (parse_script_dom content) as (pages' & Hp' & Hdom).
    assert (pages' = pages) as -> by congruence.
    intros k (line & _ & i & Hi & _)%elem_of_dom%Hdom.
    by eapply marker_at_nonneg. }
  split; [done|]. intros Hn. unfold copy_page_dialogues.
  destruct (pages !! n) eqn:E; [|done].
  specialize (Hkeys n ltac:(eauto)). lia.
Qed.

Lemma negative_page_not_found_witness :
  (∀ k, is_Some (({[ 1%Z := [py "Hello"]; 2%Z := [py "Goodbye"] ]} : PageTable) !! k)
        → (0 ≤ k)%Z)
  ∧ ((-1 < 0)%Z →
     copy_page_dialogues {[ 1%Z := [py "Hello"]; 2%Z := [py "Goodbye"] ]} (-1)
     = ([Print (page_not_found_msg (-1));
         Print (py "利用可能なページ: "
                ++ str_of_list (sorted_keys
                     {[ 1%Z := [py "Hello"]; 2%Z := [py "Goodbye"] ]}))],
        SysExit 1)).
Proof.
  apply (negative_page_not_found scenario_A). by vm_compute.
Defined.

(** X6.  Under an active page, a line of the text that is neither a marker
    line nor an annotation line adds the content of its last quoted span,
    provided that span has a character before it; a single
    label「text」 line thus adds text. *)
Theorem labelled_span_extracted content line (pages : PageTable) p ds j d :
  line ∈ split newline content →
  (∀ i n, ¬ marker_at line i n) →
  ¬ trimmed_starts line wide_paren →
  ¬ trimmed_starts line square_bracket →
  pages !! p = Some ds →
  span_at line j d → (1 ≤ j)%nat →
  (∀ j' d', span_at line j' d' → (j' ≤ j)%nat) →
  process_line (pages, Some p) line
  = Some (<[p := ds ++ [d]]> pages, Some p).
Proof.
  intros Hnl%split_no_sep Hpage%page_search_none Ha1 Ha2 Hp Hspan Hj Hlast.
  pose proof (is_annotation_false line Ha1 Ha2) as Ha.
  destruct (Re.search dialogue_re line) as [m|] eqn:Em.
  - destruct (dialogue_search_some line m Hnl Em) as (j' & _ & Hspan' & Hlast').
    assert (j' = j) as -> by (specialize (Hlast _ _ Hspan');
                              specialize (Hlast' _ _ Hspan); lia).
    rewrite (span_at_functional _ _ _ _ Hspan Hspan').
    by apply process_line_dialogue.
  - pose proof (dialogue_search_none line Hnl Em j d Hspan). lia.
Qed.

Lemma labelled_span_extracted_witness :
  process_line ({[ 1%Z := [] ]}, Some 1%Z) (py "Alice「Hello」")
  = Some (<[1%Z := [] ++ [py "Hello"]]> {[ 1%Z := [] ]}, Some 1%Z).
Proof.
  apply (labelled_span_extracted (py "Alice「Hello」") _ _ _ _ 5%nat).
  - by left.
  - by apply page_search_none; vm_compute.
  - intros H. by apply (or_introl (B := trimmed_starts _ square_bracket)),
      is_annotation_spec in H; vm_compute in H.
  - intros H. by apply (or_intror (A := trimmed_starts _ wide_paren)),
      is_annotation_spec in H; vm_compute in H.
  - by vm_compute.
  - exists (py "Alice"), []. split_and!; try done. by apply not_in_check.
  - lia.
  - intros j' d' [Hj' (m & Hm & _)]%span_at_exec.
    destruct (decide (j' ≤ 5)%nat); [done|].
    vm_compute in Hj'.
    assert (j' ∈ [6; 7; 8; 9; 10; 11; 12]%nat) as Hin
      by (apply list_elem_of_In; simpl; lia).
    repeat (apply elem_of_cons in Hin as [-> | Hin];
            [by vm_compute in Hm|]).
    by apply elem_of_nil in Hin.
Defined.

(** X7.  A line never changes the dialogues of a page other than the
    current one: such a page keeps its entry, or is created without
    dialogue when the line is its marker. *)
Theorem other_pages_untouched st line st' k :
  process_line st line = Some st' →
  st.2 ≠ Some k →
  st'.1 !! k = st.1 !! k ∨ (st.1 !! k = None ∧ st'.1 !! k = Some []).
Proof.
  destruct st as [pages cur]. cbn [fst snd].
  destruct (Re.search page_pattern line) as [m|] eqn:Ep.
  - rewrite (process_line_marker _ _ _ _ Ep). intros [= <-] _. simpl.
    destruct (pages !! int (Re.group1 m)) eqn:E; [by left|].
    destruct (decide (k = int (Re.group1 m))) as [-> | Hk].
    + right. by rewrite lookup_insert_eq.
    + left. by rewrite lookup_insert_ne.
  - destruct cur as [p|];
      [|rewrite process_line_inactive by done; intros [= <-]; by left].
    destruct (is_annotation line) eqn:Ea;
      [rewrite process_line_annotation by done; intros [= <-]; by left|].
    destruct (Re.search dialogue_re line) as [m|] eqn:Em;
      [|rewrite process_line_silent by done; intros [= <-]; by left].
    unfold process_line. rewrite Ep, Ea, Em.
    destruct (pages !! p) as [ds|] eqn:Hp; [|done]. intros [= <-] Hk.
    left. simpl. apply lookup_insert_ne. congruence.
Qed.

Lemma other_pages_untouched_witness :
  (hello_after, Some 1%Z).1 !! 2%Z = (hello_before, Some 1%Z).1 !! 2%Z
  ∨ ((hello_before, Some 1%Z).1 !! 2%Z = None
     ∧ (hello_after, Some 1%Z).1 !! 2%Z = Some []).
Proof.
  apply (other_pages_untouched (hello_before, Some 1%Z) (py "Alice「Hello」")
           (hello_after, Some 1%Z) 2%Z).
  - by vm_compute.
  - discriminate.
Defined.

Lemma dialogue_of_step (pages : PageTable) p ds line :
  Re.search page_pattern line = None →
  pages !! p = Some ds →
  process_line (pages, Some p) line
  = Some (match dialogue_of line with
          | Some d => <[p := ds ++ [d]]> pages
          | None => pages
          end, Some p).
Proof.
  intros Hpage Hp. unfold dialogue_of.
  destruct (is_annotation line) eqn:Ea;
    [by apply process_line_annotation|].
  destruct (Re.search dialogue_re line) as [m|] eqn:Em; simpl.
  - by apply process_line_dialogue.
  - by apply process_line_silent.
Qed.

(** X8.  Between two marker lines the dialogues of the current page grow
    by what each line yields, in line order: lines without a marker, met
    under the active page [p], append to its list the dialogues of the
    lines that have one and change nothing else. *)
Theorem page_block_in_line_order lines : ∀ (pages : PageTable) p ds,
  (∀ line i n, line ∈ lines → ¬ marker_at line i n) →
  pages !! p = Some ds →
  process_lines (pages, Some p) lines
  = Some (<[p := ds ++ omap dialogue_of lines]> pages, Some p).
Proof.
  induction lines as [|line lines IH]; intros pages p ds Hnone Hp.
  - cbn [process_lines omap]. by rewrite app_nil_r, insert_id.
  - assert (Re.search page_pattern line = None) as Hpage.
    { apply page_search_none. intros i n. apply Hnone. left. }
    assert (∀ l i n, l ∈ lines → ¬ marker_at l i n) as Hnone'.
    { intros l i n Hl. apply Hnone. by right. }
    cbn [process_lines]. rewrite (dialogue_of_step _ _ ds) by done.
    change (omap dialogue_of (line :: lines))
      with (match dialogue_of line with
            | Some d => d :: omap dialogue_of lines
            | None => omap dialogue_of lines
            end).
    destruct (dialogue_of line) as [d|].
    + rewrite (IH _ p (ds ++ [d])); [|done|by rewrite lookup_insert_eq].
      by rewrite insert_insert_eq, <- app_assoc.
    + by apply IH.
Qed.

Lemma page_block_in_line_order_witness :
  process_lines ({[ 1%Z := [] ]}, Some 1%Z)
    [py "Alice「Hello」"; py "（stage direction）"; py "Bob「Bye」"]
  = Some (<[1%Z := [] ++ omap dialogue_of
                        [py "Alice「Hello」"; py "（stage direction）";
                         py "Bob「Bye」"]]> {[ 1%Z := [] ]}, Some 1%Z).
Proof.
  apply page_block_in_line_order; [|by vm_compute].
  intros line i n Hline. apply page_search_none.
  repeat (apply elem_of_cons in Hline as [-> | Hline]; [by vm_compute|]).
  by apply elem_of_nil in Hline.
Defined.

(** ** Further properties of the presenter *)

(** The three ways [copy_page_dialogues] can end. *)
Lemma copy_page_dialogues_cases (pages : PageTable) n :
  (pages !! n = None
   ∧ copy_page_dialogues pages n
     = ([Print (page_not_found_msg n);
         Print (py "利用可能なページ: " ++ str_of_list (sorted_keys pages))],
        SysExit 1))
  ∨ (pages !! n = Some []
     ∧ copy_page_dialogues pages n = ([Print (page_empty_msg n)], SysExit 1))
  ∨ (∃ d rest tr,
       pages !! n = Some (d :: rest)
       ∧ clipboard_writes tr = []
       ∧ copy_page_dialogues pages n
         = (Pbcopy (join [newline; newline] (d :: rest)) :: tr, Done tt)).
Proof.
  destruct (pages !! n) as [[|d rest]|] eqn:E.
  - right. left. split; [done|]. unfold copy_page_dialogues. by rewrite E.
  - right. right. eexists d, rest, _. split; [done|].
    rewrite (copy_page_dialogues_success _ _ _ _ E). split; [|done]. done.
  - left. split; [done|]. unfold copy_page_dialogues. by rewrite E.
Qed.

Lemma clipboard_writes_prints {A} (f : A → str) l :
  clipboard_writes (map (λ x, Print (f x)) l) = [].
Proof. by induction l. Qed.

Lemma clipboard_writes_imap (g : nat → str → str) ds :
  clipboard_writes (imap (λ i d, Print (g i d)) ds) = [].
Proof.
  revert g. induction ds as [|d ds IH]; intros g; [done|].
  rewrite imap_cons. apply (IH (λ i, g (S i))).
Qed.

Lemma clipboard_writes_app tr1 tr2 :
  clipboard_writes (tr1 ++ tr2) = clipboard_writes tr1 ++ clipboard_writes tr2.
Proof. apply omap_app. Qed.

Lemma clipboard_writes_concat {A} (F : A → list event) ks :
  (∀ k, clipboard_writes (F k) = []) →
  clipboard_writes (concat (map F ks)) = [].
Proof.
  intros HF. induction ks as [|k ks IH]; [done|].
  cbn [map concat]. by rewrite clipboard_writes_app, HF, IH.
Qed.

Lemma clipboard_writes_page_listing k ds :
  clipboard_writes (page_listing k ds) = [].
Proof.
  exact (clipboard_writes_imap
           (λ i d, py "  " ++ str_of_int (1 + Z.of_nat i) ++ py ". "
                   ++ display d) ds).
Qed.

Lemma list_pages_clipboard (pages : PageTable) :
  clipboard_writes (list_pages pages).1 = [].
Proof.
  rewrite list_pages_trace. cbn [fst].
  rewrite clipboard_writes_app, clipboard_writes_concat; [done|].
  intros k. apply clipboard_writes_page_listing.
Qed.

(** The ways [main] can end. *)
Lemma main_cases fs a :
  (fs (arg_script_file a) = None
   ∧ ∃ text, main fs a = ([Print text], SysExit 1))
  ∨ ∃ content pages,
      fs (arg_script_file a) = Some content
      ∧ parse_script content = Some pages
      ∧ ((pages = ∅ ∧ main fs a = ([Print no_pages_msg], SysExit 1))
         ∨ (pages ≠ ∅ ∧ arg_list a = true ∧ main fs a = list_pages pages)
         ∨ (pages ≠ ∅ ∧ arg_list a = false ∧ arg_page a = None
            ∧ main fs a = ([Print missing_mode_msg; PrintHelp], SysExit 1))
         ∨ (∃ n, pages ≠ ∅ ∧ arg_list a = false ∧ arg_page a = Some n
                 ∧ main fs a = copy_page_dialogues pages n)).
Proof.
  unfold main. destruct (fs (arg_script_file a)) as [content|].
  - right. destruct (parse_script_total content) as [pages Hp].
    exists content, pages. rewrite Hp. split; [done|]. split; [done|].
    destruct (decide (pages = ∅)) as [-> | Hne].
    + left. split; [done|]. by vm_compute.
    + right. destruct (arg_list a); [left; by split_and!|]. right.
      destruct (arg_page a) as [n|]; [right; exists n; by split_and!|].
      left. split; [done|]. split; [done|]. split; [done|]. by vm_compute.
  - left. split; [done|]. rewrite print_bind. eexists. reflexivity.
Qed.

(** X9.  Listing never touches the clipboard: [list_pages] returns
    normally for every table and pipes nothing to [pbcopy]. *)
Theorem list_pages_only_prints (pages : PageTable) :
  (list_pages pages).2 = Done tt
  ∧ clipboard_writes (list_pages pages).1 = [].
Proof.
  split; [by rewrite list_pages_trace | apply list_pages_clipboard].
Qed.

(** X10.  One run of [main] pipes text to [pbcopy] at most once, and only
    in a successful single-page copy: the text is then the joined
    dialogues of the requested page of the parsed file, --list is off and
    the run returns normally.  In every other run the clipboard is left
    alone. *)
Theorem main_clipboard fs a :
  clipboard_writes (main fs a).1 = []
  ∨ ∃ content pages n d rest,
      fs (arg_script_file a) = Some content
      ∧ parse_script content = Some pages
      ∧ arg_list a = false
      ∧ arg_page a = Some n
      ∧ pages !! n = Some (d :: rest)
      ∧ clipboard_writes (main fs a).1 = [join [newline; newline] (d :: rest)]
      ∧ (main fs a).2 = Done tt.
Proof.
  destruct (main_cases fs a)
    as [[_ (text & ->)] | (content & pages & Hfs & Hp & Hcase)];
    [by left|].
  destruct Hcase as [[_ ->] | [(_ & _ & ->) | [(_ & _ & _ & ->) |
                     (n & _ & Hlist & Hpage & ->)]]];
    [by left | left; apply list_pages_clipboard | by left |].
  destruct (copy_page_dialogues_cases pages n)
    as [[_ ->] | [[_ ->] | (d & rest & tr & Hn & Htr & ->)]];
    [by left | by left |].
  right. exists content, pages, n, d, rest. split_and!; try done.
  cbn [fst]. change (clipboard_writes (Pbcopy ?t :: tr))
    with (t :: clipboard_writes tr). by rewrite Htr.
Qed.


(** X12.  The text shown for a dialogue in the page list is never longer
    than 33 characters and always starts with the first 30 characters of
    the dialogue. *)
Theorem display_bounds d :
  (length (display d) ≤ 33)%nat ∧ take 30 (display d) = take 30 d.
Proof.
  unfold display. destruct (30 <? length d)%nat eqn:E.
  - apply Nat.ltb_lt in E. split.
    + rewrite length_app, length_take. change (length (py "...")) with 3%nat.
      lia.
    + apply take_app_length'. rewrite length_take. lia.
  - apply Nat.ltb_ge in E. split; [lia | done].
Qed.

(** Two texts that start with a newline-free part, each followed by
    nothing or by a newline, agree part by part. *)
Lemma newline_free_app_inv (x y r1 r2 : str) :
  newline ∉ x → newline ∉ y →
  match r1 with [] => True | c :: _ => c = newline end →
  match r2 with [] => True | c :: _ => c = newline end →
  x ++ r1 = y ++ r2 → x = y ∧ r1 = r2.
Proof.
  revert y. induction x as [|c x IH]; intros [|c' y] Hx Hy H1 H2; simpl.
  - done.
  - intros ->. subst c'. destruct Hy. left.
  - intros <-. subst c. destruct Hx. left.
  - intros [= <- H]. apply not_elem_of_cons in Hx as [_ Hx].
    apply not_elem_of_cons in Hy as [_ Hy].
    destruct (IH y Hx Hy H1 H2 H) as [-> ->]. done.
Qed.

Lemma joined_tail_head (l : list str) :
  match concat (map (app [newline; newline]) l) with
  | [] => True
  | c :: _ => c = newline
  end.
Proof. by destruct l. Qed.

Lemma joined_tail_inj (l1 l2 : list str) :
  Forall well_formed_dialogue l1 → Forall well_formed_dialogue l2 →
  concat (map (app [newline; newline]) l1)
  = concat (map (app [newline; newline]) l2) →
  l1 = l2.
Proof.
  intros H1. revert l2.
  induction H1 as [|a1 l1 (_ & _ & Ha1) _ IH]; intros l2 H2; destruct H2
    as [|a2 l2 (_ & _ & Ha2) H2]; simpl; try done.
  intros [= H].
  destruct (newline_free_app_inv _ _ _ _ Ha1 Ha2
              (joined_tail_head l1) (joined_tail_head l2) H) as [-> Ht].
  by rewrite (IH l2 H2 Ht).
Qed.

Lemma join_inj (l1 l2 : list str) :
  Forall well_formed_dialogue l1 → Forall well_formed_dialogue l2 →
  join [newline; newline] l1 = join [newline; newline] l2 →
  l1 = l2.
Proof.
  intros H1 H2.
  destruct H1 as [|a1 l1 (Hne1 & _ & Ha1) H1],
           H2 as [|a2 l2 (Hne2 & _ & Ha2) H2]; try done.
  - rewrite join_cons. intros H. symmetry in H.
    by apply app_eq_nil in H as [-> _].
  - rewrite join_cons. intros H. by apply app_eq_nil in H as [-> _].
  - rewrite !join_cons. intros H.
    destruct (newline_free_app_inv _ _ _ _ Ha1 Ha2
                (joined_tail_head l1) (joined_tail_head l2) H) as [-> Ht].
    by rewrite (joined_tail_inj l1 l2 H1 H2 Ht).
Qed.

(** X13.  The text copied for a page of a parsed script determines the
    dialogues of that page: two pages of parsed scripts whose dialogues
    join to the same text have the same dialogues (the text splits back
    at its blank lines). *)
Theorem copied_text_determines_dialogues c1 c2 pages1 pages2 n1 n2 ds1 ds2 :
  parse_script c1 = Some pages1 → parse_script c2 = Some pages2 →
  pages1 !! n1 = Some ds1 → pages2 !! n2 = Some ds2 →
  join [newline; newline] ds1 = join [newline; newline] ds2 →
  ds1 = ds2.
Proof.
  intros Hp1 Hp2 H1 H2. apply join_inj; apply Forall_forall; intros d Hd.
  - by apply (parse_script_well_formed _ _ Hp1 n1 ds1 d).
  - by apply (parse_script_well_formed _ _ Hp2 n2 ds2 d).
Qed.

Lemma copied_text_determines_dialogues_witness : [py "Hello"] = [py "Hello"].
Proof.
  apply (copied_text_determines_dialogues
           scenario_A (py "Alice「x」" ++ newline :: scenario_A)
           {[ 1%Z := [py "Hello"]; 2%Z := [py "Goodbye"] ]}
           {[ 1%Z := [py "Hello"]; 2%Z := [py "Goodbye"] ]} 1%Z 1%Z);
    by vm_compute.
Defined.
